(** * Freestanding memory utilities of [sdk/bpf/c/inc/sol/string.h]

    A shallow embedding of the byte primitives ([sol_memcpy],
    [sol_memmove], [sol_memcmp], [sol_memset], [sol_strlen]) and of the
    bump allocator ([sol_calloc]) together with the properties stated
    for them.

    Conventions.
    - An address is an integer ([Z]); the null pointer is address [0].
      Pointer arithmetic inside an object never wraps in C, so [p + i]
      is plain addition on [Z].
    - Memory is a total map from addresses to bytes.
    - [uint64_t] and [size_t] are 64-bit: every operation on them that
      can leave the range [0, 2^64) is followed by [wrap64].
    - [int] counters of the loops range over [0 .. len), so no
      signed overflow occurs; they are modelled by [Z]. *)

From Stdlib Require Import Strings.Byte Strings.String.
From Stdlib Require Import ZArith List Bool Lia.
Import ListNotations.
Local Open Scope Z_scope.

(** ** Memory *)

Module Mem.

Definition addr := Z.
Definition mem := addr -> byte.

Definition NULL : addr := 0.

(** [*(uint8_t * )p] *)
Definition load (m : mem) (p : addr) : byte := m p.

(** [*(uint8_t * )p = v] *)
Definition store (m : mem) (p : addr) (v : byte) : mem :=
  fun q => if q =? p then v else m q.

(** Numeric value of a byte, in [0, 256). *)
Definition byte_val (b : byte) : Z := Z.of_N (Byte.to_N b).

(** The bytes [m[p], ..., m[p + n - 1]]. *)
Fixpoint read (m : mem) (p : addr) (n : nat) : list byte :=
  match n with
  | O => []
  | S n' => load m p :: read m (p + 1) n'
  end.

(** Memory in which the bytes of [bs] start at [p]; every other cell
    holds [x00]. *)
Fixpoint place (p : addr) (bs : list byte) : mem :=
  match bs with
  | [] => fun _ => x00
  | b :: bs' => fun q => if q =? p then b else place (p + 1) bs' q
  end.

(** [bs] is the content of [m] from address [p] on. *)
Definition holds (m : mem) (p : addr) (bs : list byte) : Prop :=
  forall i : nat, (i < length bs)%nat ->
    load m (p + Z.of_nat i) = nth i bs x00.

End Mem.
Import Mem.

(** ** Byte primitives *)

(** Body of the loop of [sol_memcpy]:
    [for (int i = 0; i < len; i++) dst[i] = src[i];]
    with [n] iterations left and the counter at [i]. *)
Fixpoint memcpy_loop (n : nat) (i : Z) (dst src : addr) (m : mem) : mem :=
  match n with
  | O => m
  | S n' => memcpy_loop n' (i + 1) dst src
              (store m (dst + i) (load m (src + i)))
  end.

Definition sol_memcpy (dst src : addr) (len : Z) (m : mem) : mem :=
  if (dst =? NULL) || (src =? NULL) then m
  else memcpy_loop (Z.to_nat len) 0 dst src m.

(** The trailing loop of [sol_memmove]:
    [for (int i = len - 1; i >= 0; i--) dest[i] = source[i];]
    with [n] iterations left, the next one at index [n - 1]. *)
Fixpoint memmove_back_loop (n : nat) (dest source : addr) (m : mem) : mem :=
  match n with
  | O => m
  | S n' => memmove_back_loop n' dest source
              (store m (dest + Z.of_nat n') (load m (source + Z.of_nat n')))
  end.

(** [sol_memmove]: after the early return, the forward copy is taken
    when [dest < source], and the backward loop follows it in every
    case (the [if] has no [else] and does not return). *)
Definition sol_memmove (dst src : addr) (len : Z) (m : mem) : mem :=
  let dest := dst in
  let source := src in
  if (dest =? NULL) || (source =? NULL) || (source =? dest) then m
  else
    let m1 := if dest <? source then sol_memcpy dst src len m else m in
    memmove_back_loop (Z.to_nat len) dest source m1.

(** [uint8_t diff = s1[i] - s2[i];] the operands are promoted to [int],
    subtracted, and the difference is truncated to 8 bits. *)
Definition byte_diff (a b : byte) : Z := (byte_val a - byte_val b) mod 256.

Fixpoint memcmp_loop (n : nat) (i : Z) (s1 s2 : addr) (m : mem) : Z :=
  match n with
  | O => 0
  | S n' =>
      let diff := byte_diff (load m (s1 + i)) (load m (s2 + i)) in
      if diff =? 0 then memcmp_loop n' (i + 1) s1 s2 m else diff
  end.

Definition sol_memcmp (s1 s2 : addr) (n : Z) (m : mem) : Z :=
  if (s1 =? NULL) || (s2 =? NULL) then 1
  else memcmp_loop (Z.to_nat n) 0 s1 s2 m.

Definition wrap64 (x : Z) : Z := x mod 2 ^ 64.

Definition is_nul (b : byte) : bool := byte_val b =? 0.

(** The [while (1)] loop of [sol_strlen]; each iteration inspects up to
    four bytes and costs one unit of fuel.  [None] means the fuel ran
    out before a terminator was met. *)
Fixpoint strlen_loop (fuel : nat) (ref s : addr) (m : mem) : option Z :=
  match fuel with
  | O => None
  | S fuel' =>
      if is_nul (load m (s + 0)) then Some (wrap64 (s - ref + 0))
      else if is_nul (load m (s + 1)) then Some (wrap64 (s - ref + 1))
      else if is_nul (load m (s + 2)) then Some (wrap64 (s - ref + 2))
      else if is_nul (load m (s + 3)) then Some (wrap64 (s - ref + 3))
      else strlen_loop fuel' ref (s + 4) m
  end.

Definition sol_strlen (fuel : nat) (s : addr) (m : mem) : option Z :=
  let ref := s in
  if s =? NULL then Some 0
  else strlen_loop fuel ref s m.

(** Index of the first zero byte of a byte sequence, if it has one. *)
Fixpoint first_zero (bs : list byte) : option nat :=
  match bs with
  | [] => None
  | b :: bs' => if is_nul b then Some O
                else option_map S (first_zero bs')
  end.

(** ** Bump allocator *)

Definition HEAP_START_ADDRESS : Z := 0x300000000.
Definition HEAP_LENGTH : Z := 32 * 1024.

(** [sizeof(uint8_t * )] on the 64-bit target. *)
Definition sizeof_ptr : Z := 8.

(** [~x] on a [uint64_t]. *)
Definition not64 (x : Z) : Z := 2 ^ 64 - 1 - x.

(** The six [align |= align >> k] statements. *)
Definition smear (a : Z) : Z :=
  let a := Z.lor a (Z.shiftr a 1) in
  let a := Z.lor a (Z.shiftr a 2) in
  let a := Z.lor a (Z.shiftr a 4) in
  let a := Z.lor a (Z.shiftr a 8) in
  let a := Z.lor a (Z.shiftr a 16) in
  let a := Z.lor a (Z.shiftr a 32) in
  a.

(** [align = size; align--; align |= ...; align++;] *)
Definition alignment (size : Z) : Z :=
  let align := size in
  let align := wrap64 (align - 1) in
  let align := smear align in
  wrap64 (align + 1).

(** The cursor the call works with: the stored word, or the top of the
    heap when the word is still [0]. *)
Definition initial_pos (word : Z) : Z :=
  if word =? 0 then HEAP_START_ADDRESS + HEAP_LENGTH else word.

(** [sol_calloc].  The only memory the function touches is the 64-bit
    word at [HEAP_START_ADDRESS]; [word] is its value before the call,
    and the result is the returned pointer paired with the value of that
    word after the call. *)
Definition sol_calloc (word : Z) (nitems size : Z) : addr * Z :=
  let pos := initial_pos word in
  let bytes := wrap64 (nitems * size) in
  if (size =? 0) ||
     (negb ((nitems =? 0) || (size =? 0)) && negb (nitems =? bytes / size))
  then (NULL, word)
  else
    let pos := if pos <? bytes then 0 else pos - bytes in
    let align := alignment size in
    let pos := Z.land pos (not64 (wrap64 (align - 1))) in
    if pos <? HEAP_START_ADDRESS + sizeof_ptr then (NULL, word)
    else (pos, pos).

(** [sol_free] does nothing. *)
Definition sol_free (word : Z) (ptr : addr) : Z := word.

Definition uint64 (x : Z) : Prop := 0 <= x < 2 ^ 64.

(** A request [(nitems, size)] and a granted allocation. *)
Record alloc := { base : addr; a_nitems : Z; a_size : Z }.

(** Runs a sequence of [sol_calloc] calls from cursor word [word];
    returns the allocations granted, in call order, and the final
    word. *)
Fixpoint run_callocs (word : Z) (reqs : list (Z * Z)) : list alloc * Z :=
  match reqs with
  | [] => ([], word)
  | (nitems, size) :: reqs' =>
      let '(p, word') := sol_calloc word nitems size in
      let '(grants, final) := run_callocs word' reqs' in
      ((if p =? NULL then grants
        else {| base := p; a_nitems := nitems; a_size := size |} :: grants),
       final)
  end.

(** The stated range of a non-zero cursor word. *)
Definition cursor_ok (word : Z) : Prop :=
  word <> 0 ->
  HEAP_START_ADDRESS + sizeof_ptr <= word <= HEAP_START_ADDRESS + HEAP_LENGTH.

(** [a] is the smallest power of two that is at least [size]. *)
Definition smallest_pow2_ge (size a : Z) : Prop :=
  (exists k, 0 <= k /\ a = 2 ^ k) /\
  size <= a /\
  forall j, 0 <= j -> size <= 2 ^ j -> a <= 2 ^ j.

(** The byte ranges of two allocations do not intersect. *)
Definition disjoint (x y : alloc) : Prop :=
  forall q,
    ~ (base x <= q < base x + a_nitems x * a_size x /\
       base y <= q < base y + a_nitems y * a_size y).

Definition aligned (x : alloc) : Prop :=
  exists a, smallest_pow2_ge (a_size x) a /\ base x mod a = 0.

(** ** Auxiliary notions used in the statements and proofs *)

(** Bit [i] of [y] is set exactly when [x] has a set bit among the [w]
    positions from [i] upwards. *)
Definition window (x y w : Z) : Prop :=
  forall i, 0 <= i ->
    Z.testbit y i = true <->
    exists j, i <= j < i + w /\ Z.testbit x j = true.

(** The pointer a successful call returns: the cursor lowered by the
    byte count and rounded down to the alignment. *)
Definition granted (word nitems size : Z) : Z :=
  let pos := initial_pos word - nitems * size in
  pos - pos mod 2 ^ Z.log2_up size.

(** Both arguments of a request are 64-bit values. *)
Definition valid_request (r : Z * Z) : Prop :=
  uint64 (fst r) /\ uint64 (snd r).

(** A granted allocation lies between the cursor word and the cursor
    the run started from. *)
Definition below (top : Z) (g : alloc) : Prop :=
  HEAP_START_ADDRESS + sizeof_ptr <= base g /\
  0 <= a_nitems g * a_size g /\
  base g + a_nitems g * a_size g <= top.

(** ** Concrete inputs *)

Definition buf : addr := 4096.

(** The eight-byte buffer of the overlap scenarios. *)
Definition abcdefgh : mem := place buf (list_byte_of_string "abcdefgh").

(** Two terminated strings laid out back to back. *)
Definition fox_dog : list byte :=
  list_byte_of_string "the quick brown fox" ++ [x00]
  ++ list_byte_of_string "dog" ++ [x00].

(** ** [sol_memset] *)

(** [*a = c;] the [int] is converted to [uint8_t], which keeps its low
    eight bits. *)
Definition byte_of_int (c : Z) : byte :=
  match Byte.of_N (Z.to_N (c mod 256)) with
  | Some b => b
  | None => x00
  end.

(** The loop of [sol_memset]:
    [while (len > 0) { *a = c; a++; len--; }]
    with [n] iterations left. *)
Fixpoint memset_loop (n : nat) (a : addr) (c : Z) (m : mem) : mem :=
  match n with
  | O => m
  | S n' => memset_loop n' (a + 1) c (store m a (byte_of_int c))
  end.

(** [sol_memset]: only its effect on memory is modelled; the function
    is declared to return a pointer but no path returns a value. *)
Definition sol_memset (b : addr) (c : Z) (len : Z) (m : mem) : mem :=
  let a := b in
  if b =? NULL then m
  else memset_loop (Z.to_nat len) a c m.

(** Bytes handed out by a list of granted allocations. *)
Fixpoint total_bytes (grants : list alloc) : Z :=
  match grants with
  | [] => 0
  | g :: grants' => a_nitems g * a_size g + total_bytes grants'
  end.

(** * Properties of the byte primitives *)

Section Bytes.

Lemma byte_val_range (b : byte) : 0 <= byte_val b < 256.
Proof.
  unfold byte_val. pose proof (Byte.to_N_bounded b). lia.
Qed.

Lemma byte_val_inj (a b : byte) : byte_val a = byte_val b -> a = b.
Proof.
  unfold byte_val. intros H. apply N2Z.inj in H.
  pose proof (Byte.of_to_N a) as Ha. pose proof (Byte.of_to_N b) as Hb.
  rewrite H in Ha. congruence.
Qed.

Lemma byte_diff_range (a b : byte) : 0 <= byte_diff a b < 256.
Proof. unfold byte_diff. apply Z.mod_pos_bound. lia. Qed.

Lemma byte_diff_zero_iff (a b : byte) : byte_diff a b = 0 <-> a = b.
Proof.
  unfold byte_diff. split.
  - intros H. apply byte_val_inj.
    pose proof (byte_val_range a). pose proof (byte_val_range b).
    apply Z.mod_divide in H; [|lia]. destruct H as [q Hq]. lia.
  - intros ->. now rewrite Z.sub_diag.
Qed.

Lemma is_nul_false_neq (b : byte) : is_nul b = false <-> b <> x00.
Proof.
  unfold is_nul. rewrite Z.eqb_neq. split.
  - intros H ->. now apply H.
  - intros H E. apply H. now apply byte_val_inj.
Qed.

End Bytes.

Section Memcmp.

Variables (m : mem) (s1 s2 : addr).

Lemma memcmp_loop_zero (n : nat) : forall i,
  memcmp_loop n i s1 s2 m = 0 ->
  forall j, i <= j < i + Z.of_nat n -> load m (s1 + j) = load m (s2 + j).
Proof.
  induction n as [|n IH]; intros i H j Hj; [lia|].
  cbn [memcmp_loop] in H.
  destruct (byte_diff (load m (s1 + i)) (load m (s2 + i)) =? 0) eqn:E.
  - apply Z.eqb_eq, byte_diff_zero_iff in E.
    destruct (Z.eq_dec j i) as [->|Hne]; [exact E|].
    apply (IH (i + 1) H). lia.
  - apply Z.eqb_neq in E. contradiction.
Qed.

Lemma memcmp_loop_first_diff (n : nat) : forall i k,
  i <= k < i + Z.of_nat n ->
  (forall j, i <= j < k -> load m (s1 + j) = load m (s2 + j)) ->
  load m (s1 + k) <> load m (s2 + k) ->
  memcmp_loop n i s1 s2 m = byte_diff (load m (s1 + k)) (load m (s2 + k)).
Proof.
  induction n as [|n IH]; intros i k Hk Heq Hne; [lia|].
  cbn [memcmp_loop].
  destruct (byte_diff (load m (s1 + i)) (load m (s2 + i)) =? 0) eqn:E.
  - apply Z.eqb_eq, byte_diff_zero_iff in E.
    assert (k <> i) by (intros ->; contradiction).
    apply IH; [lia| |exact Hne]. intros j Hj. apply Heq. lia.
  - apply Z.eqb_neq in E.
    destruct (Z.eq_dec k i) as [->|Hki]; [reflexivity|].
    exfalso. apply E, byte_diff_zero_iff, Heq. lia.
Qed.

Lemma memcmp_loop_equal (n : nat) : forall i,
  (forall j, i <= j < i + Z.of_nat n ->
     load m (s1 + j) = load m (s2 + j)) ->
  memcmp_loop n i s1 s2 m = 0.
Proof.
  induction n as [|n IH]; intros i H; [reflexivity|].
  cbn [memcmp_loop].
  replace (byte_diff _ _ =? 0) with true.
  - apply IH. intros j Hj. apply H. lia.
  - symmetry. apply Z.eqb_eq, byte_diff_zero_iff, H. lia.
Qed.

End Memcmp.

Section Strlen.

Variable m : mem.

(** The scan stops at the first terminator, wherever it lies inside
    the group of four bytes being inspected. *)
Lemma strlen_loop_first_nul (fuel : nat) : forall ref s k,
  0 <= k ->
  (forall j, 0 <= j < k -> is_nul (load m (s + j)) = false) ->
  is_nul (load m (s + k)) = true ->
  k / 4 < Z.of_nat fuel ->
  strlen_loop fuel ref s m = Some (wrap64 (s - ref + k)).
Proof.
  induction fuel as [|fuel IH]; intros ref s k Hk Hlow Hnul Hfuel.
  - pose proof (Z.div_pos k 4). lia.
  - cbn [strlen_loop].
    destruct (Z.eq_dec k 0) as [->|H0]; [now rewrite Hnul|].
    rewrite (Hlow 0) by lia.
    destruct (Z.eq_dec k 1) as [->|H1]; [now rewrite Hnul|].
    rewrite (Hlow 1) by lia.
    destruct (Z.eq_dec k 2) as [->|H2]; [now rewrite Hnul|].
    rewrite (Hlow 2) by lia.
    destruct (Z.eq_dec k 3) as [->|H3]; [now rewrite Hnul|].
    rewrite (Hlow 3) by lia.
    rewrite (IH ref (s + 4) (k - 4)).
    + f_equal. f_equal. lia.
    + lia.
    + intros j Hj. replace (s + 4 + j) with (s + (j + 4)) by lia.
      apply Hlow. lia.
    + now replace (s + 4 + (k - 4)) with (s + k) by lia.
    + replace k with ((k - 4) + 1 * 4) in Hfuel by lia.
      rewrite Z.div_add in Hfuel by lia. lia.
Qed.

Lemma first_zero_spec (bs : list byte) : forall k,
  first_zero bs = Some k ->
  (k < length bs)%nat /\
  is_nul (nth k bs x00) = true /\
  forall j, (j < k)%nat -> is_nul (nth j bs x00) = false.
Proof.
  induction bs as [|b bs IH]; intros k H; [discriminate|].
  cbn [first_zero] in H. destruct (is_nul b) eqn:E.
  - injection H as <-. cbn. repeat split; [lia|exact E|lia].
  - destruct (first_zero bs) as [k'|]; [|discriminate].
    injection H as <-. destruct (IH k' eq_refl) as (Hlen & Hk & Hlow).
    cbn [length nth]. repeat split; [lia|exact Hk|].
    intros [|j] Hj; [exact E|]. apply Hlow. lia.
Qed.

End Strlen.

(** ** The claims on the byte primitives *)

(** C1 (evaluation at the failing input).  On the buffer ["abcdefgh"],
    [sol_memmove(buf + 0, buf + 2, 6)] leaves ["ghghghgh"] in the
    buffer: the forward copy produces ["cdefghgh"], and the backward
    loop, which runs afterwards on the already modified buffer,
    overwrites it.  So the destination does not hold the six bytes the
    source held before the call. *)
Theorem sol_memmove_overlap_down_clobbered :
  let m' := sol_memmove (buf + 0) (buf + 2) 6 abcdefgh in
  read (sol_memcpy (buf + 0) (buf + 2) 6 abcdefgh) buf 8
    = list_byte_of_string "cdefghgh" /\
  read m' buf 8 = list_byte_of_string "ghghghgh" /\
  read m' (buf + 0) 6 <> read abcdefgh (buf + 2) 6.
Proof.
  cbv zeta. split; [|split].
  - vm_compute. reflexivity.
  - vm_compute. reflexivity.
  - vm_compute. discriminate.
Qed.

(** C8.  For non-null [a], [b] and [n >= 0], [sol_memcmp a b n] is [0]
    exactly when the first [n] bytes agree; otherwise it is the
    difference of the bytes at the first differing index, taken modulo
    256 (unsigned 8-bit subtraction), which is not zero.  When either
    pointer is null the result is not zero. *)
Theorem sol_memcmp_spec (m : mem) (a b : addr) (n : Z) :
  0 <= n ->
  (a = NULL \/ b = NULL -> sol_memcmp a b n m <> 0) /\
  (a <> NULL -> b <> NULL ->
   (sol_memcmp a b n m = 0 <->
      forall i, 0 <= i < n -> load m (a + i) = load m (b + i)) /\
   (forall i, 0 <= i < n ->
      (forall j, 0 <= j < i -> load m (a + j) = load m (b + j)) ->
      load m (a + i) <> load m (b + i) ->
      sol_memcmp a b n m
        = (byte_val (load m (a + i)) - byte_val (load m (b + i))) mod 256 /\
      sol_memcmp a b n m <> 0)).
Proof.
  intros Hn. split.
  - intros H. unfold sol_memcmp.
    replace ((a =? NULL) || (b =? NULL)) with true; [discriminate|].
    symmetry. apply orb_true_iff. rewrite !Z.eqb_eq. exact H.
  - intros Ha Hb. unfold sol_memcmp.
    apply Z.eqb_neq in Ha, Hb. rewrite Ha, Hb. cbn [orb].
    split; [split|].
    + intros H i Hi. apply (memcmp_loop_zero m a b _ 0 H). lia.
    + intros H. apply memcmp_loop_equal. intros j Hj. apply H. lia.
    + intros i Hi Heq Hne.
      rewrite (memcmp_loop_first_diff m a b (Z.to_nat n) 0 i)
        by (try lia; assumption).
      split; [reflexivity|].
      intros E. apply Hne. now apply byte_diff_zero_iff.
Qed.

Lemma holds_place (bs : list byte) : forall p, holds (place p bs) p bs.
Proof.
  induction bs as [|b bs IH]; intros p i Hi; cbn [length] in Hi; [lia|].
  unfold load. cbn [place]. destruct i as [|i].
  - replace (p + Z.of_nat 0) with p by lia. now rewrite Z.eqb_refl.
  - replace (p + Z.of_nat (S i) =? p) with false
      by (symmetry; apply Z.eqb_neq; lia).
    replace (p + Z.of_nat (S i)) with (p + 1 + Z.of_nat i) by lia.
    apply IH. lia.
Qed.

Lemma sol_memcmp_spec_witness :
  sol_memcmp buf (buf + 20) 3 (place buf fox_dog) <> 0.
Proof.
  pose proof (sol_memcmp_spec (place buf fox_dog) buf (buf + 20) 3) as H.
  destruct H as [_ H]; [lia|].
  destruct H as [_ H]; [discriminate|discriminate|].
  apply (H 0); [lia| |].
  - intros j Hj. lia.
  - vm_compute. discriminate.
Defined.

(** C9.  If the byte sequence [X], stored at the non-null address [s],
    has its first zero byte at index [k], then [sol_strlen] returns [k],
    whatever [k mod 4] is, as soon as the fuel covers the [k / 4 + 1]
    rounds of the loop; and [sol_strlen] of the null pointer is [0]. *)
Theorem sol_strlen_first_zero
    (m : mem) (s : addr) (X : list byte) (k fuel : nat) :
  0 < s -> s + Z.of_nat (length X) <= 2 ^ 64 ->
  holds m s X ->
  first_zero X = Some k ->
  Z.of_nat k / 4 < Z.of_nat fuel ->
  sol_strlen fuel s m = Some (Z.of_nat k) /\
  sol_strlen fuel NULL m = Some 0.
Proof.
  intros Hs Hend Hm Hk Hfuel. split; [|reflexivity].
  destruct (first_zero_spec X k Hk) as (Hlen & Hnul & Hlow).
  unfold sol_strlen.
  replace (s =? NULL) with false
    by (symmetry; apply Z.eqb_neq; unfold NULL; lia).
  rewrite (strlen_loop_first_nul m fuel s s (Z.of_nat k)).
  - f_equal. replace (s - s + Z.of_nat k) with (Z.of_nat k) by lia.
    unfold wrap64. apply Z.mod_small. lia.
  - lia.
  - intros j Hj. replace j with (Z.of_nat (Z.to_nat j)) by lia.
    rewrite Hm by lia. apply Hlow. lia.
  - now rewrite Hm.
  - exact Hfuel.
Qed.

Lemma sol_strlen_first_zero_witness :
  sol_strlen 5 buf (place buf fox_dog) = Some 19.
Proof.
  apply (sol_strlen_first_zero (place buf fox_dog) buf fox_dog 19 5).
  - reflexivity.
  - vm_compute. discriminate.
  - apply holds_place.
  - reflexivity.
  - reflexivity.
Defined.

(** * Properties of the allocator *)

(** ** The alignment computation *)

Section Smear.

Lemma window_start (x : Z) : window x x 1.
Proof.
  intros i Hi. split.
  - intros H. exists i. split; [lia|exact H].
  - intros (j & Hj & H). now replace i with j by lia.
Qed.

Lemma window_step (x y w : Z) :
  0 < w -> window x y w -> window x (Z.lor y (Z.shiftr y w)) (2 * w).
Proof.
  intros Hw Hy i Hi.
  rewrite Z.lor_spec, Z.shiftr_spec by lia.
  rewrite orb_true_iff, (Hy i Hi), (Hy (i + w)) by lia.
  split.
  - intros [(j & Hj & H)|(j & Hj & H)]; exists j; split; (lia || exact H).
  - intros (j & Hj & H). destruct (Z_lt_le_dec j (i + w)).
    + left. exists j. split; [lia|exact H].
    + right. exists j. split; [lia|exact H].
Qed.

Lemma smear_window (x : Z) : window x (smear x) 64.
Proof.
  unfold smear.
  pose proof (window_start x) as H0.
  apply (window_step x _ 1) in H0; [|lia].
  apply (window_step x _ 2) in H0; [|lia].
  apply (window_step x _ 4) in H0; [|lia].
  apply (window_step x _ 8) in H0; [|lia].
  apply (window_step x _ 16) in H0; [|lia].
  apply (window_step x _ 32) in H0; [|lia].
  exact H0.
Qed.

(** On a non-zero 64-bit value the six steps set every bit below the
    highest set bit. *)
Lemma smear_ones (x : Z) :
  0 < x < 2 ^ 64 -> smear x = Z.ones (Z.log2 x + 1).
Proof.
  intros Hx.
  assert (Hlog : 0 <= Z.log2 x < 64).
  { split; [apply Z.log2_nonneg|]. apply Z.log2_lt_pow2; lia. }
  apply Z.bits_inj'. intros n Hn.
  rewrite Z.testbit_ones_nonneg by lia.
  destruct (n <? Z.log2 x + 1) eqn:E.
  - apply Z.ltb_lt in E. apply (smear_window x n Hn). exists (Z.log2 x).
    split; [lia|]. apply Z.bit_log2. lia.
  - apply Z.ltb_ge in E.
    destruct (Z.testbit (smear x) n) eqn:T; [|reflexivity].
    apply (smear_window x n Hn) in T. destruct T as (j & Hj & T).
    rewrite Z.bits_above_log2 in T by lia. discriminate.
Qed.

(** For [1 <= size <= 2^63] the computed alignment is
    [2 ^ log2_up size]. *)
Lemma alignment_pow2 (size : Z) :
  1 <= size <= 2 ^ 63 -> alignment size = 2 ^ Z.log2_up size.
Proof.
  intros Hs. unfold alignment, wrap64.
  destruct (Z.eq_dec size 1) as [->|H1]; [reflexivity|].
  assert (Hup : 0 < Z.log2_up size <= 63).
  { split; [apply Z.log2_up_pos; lia|]. apply Z.log2_up_le_pow2; lia. }
  rewrite (Z.mod_small (size - 1)) by lia.
  rewrite smear_ones by lia.
  rewrite Z.ones_equiv.
  replace (Z.log2 (size - 1) + 1) with (Z.log2_up size)
    by (rewrite Z.log2_up_eqn, <- Z.sub_1_r by lia; unfold Z.succ; lia).
  replace (Z.pred (2 ^ Z.log2_up size) + 1) with (2 ^ Z.log2_up size) by lia.
  apply Z.mod_small.
  assert (2 ^ Z.log2_up size <= 2 ^ 63) by (apply Z.pow_le_mono_r; lia).
  lia.
Qed.

(** Above [2^63] the increment wraps and the alignment is [0]. *)
Lemma alignment_wraps (size : Z) :
  2 ^ 63 < size < 2 ^ 64 -> alignment size = 0.
Proof.
  intros Hs. unfold alignment, wrap64.
  rewrite (Z.mod_small (size - 1)) by lia.
  rewrite smear_ones by lia.
  rewrite (Z.log2_unique (size - 1) 63) by (unfold Z.succ; lia).
  reflexivity.
Qed.

Lemma smallest_pow2_ge_log2_up (size : Z) :
  1 <= size -> smallest_pow2_ge size (2 ^ Z.log2_up size).
Proof.
  intros Hs. split; [|split].
  - exists (Z.log2_up size). split; [apply Z.log2_up_nonneg|reflexivity].
  - apply Z.log2_log2_up_spec. lia.
  - intros j Hj Hle. apply Z.pow_le_mono_r; [lia|].
    apply Z.log2_up_le_pow2; lia.
Qed.

End Smear.

(** ** Rounding the cursor down *)

Section RoundDown.

Lemma land_le_l (a b : Z) : 0 <= a -> Z.land a b <= a.
Proof.
  intros Ha.
  pose proof (Z.sub_land_same_l a (Z.lnot b)) as H.
  rewrite Z.lnot_involutive in H.
  assert (0 <= Z.land a (Z.lnot b)) by (apply Z.land_nonneg; now left).
  lia.
Qed.

Lemma land_not64 (a y : Z) :
  0 <= a < 2 ^ 64 -> Z.land a (not64 y) = a - Z.land a y.
Proof.
  intros Ha. rewrite Z.sub_land_same_l.
  apply Z.bits_inj'. intros n Hn. rewrite !Z.land_spec.
  destruct (Z_lt_le_dec n 64) as [Hlt|Hge].
  - f_equal.
    rewrite <- (Z.mod_pow2_bits_low (not64 y) 64 n Hlt).
    rewrite <- (Z.mod_pow2_bits_low (Z.lnot y) 64 n Hlt).
    f_equal. unfold not64. rewrite Z.lnot_eq_pred_opp.
    replace (2 ^ 64 - 1 - y) with (- y - 1 + 1 * 2 ^ 64) by lia.
    apply Z.mod_add. lia.
  - replace (Z.testbit a n) with false; [reflexivity|].
    symmetry. destruct (Z.eq_dec a 0) as [->|Hne]; [apply Z.bits_0|].
    apply Z.bits_above_log2; [lia|].
    assert (Z.log2 a < 64) by (apply Z.log2_lt_pow2; lia). lia.
Qed.

(** [pos &= ~(align - 1)] with [align = 2^k] clears the low [k] bits. *)
Lemma round_down (pos k : Z) :
  0 <= pos < 2 ^ 64 -> 0 <= k <= 63 ->
  Z.land pos (not64 (wrap64 (2 ^ k - 1))) = pos - pos mod 2 ^ k.
Proof.
  intros Hpos Hk. unfold wrap64.
  assert (0 < 2 ^ k <= 2 ^ 63).
  { split; [apply Z.pow_pos_nonneg; lia|apply Z.pow_le_mono_r; lia]. }
  rewrite Z.mod_small by lia.
  rewrite land_not64 by exact Hpos.
  replace (2 ^ k - 1) with (Z.ones k) by (rewrite Z.ones_equiv; lia).
  now rewrite Z.land_ones by lia.
Qed.

End RoundDown.

(** ** One call *)

Section OneCall.

Lemma initial_pos_range (word : Z) :
  uint64 word -> 0 < initial_pos word < 2 ^ 64.
Proof.
  unfold uint64, initial_pos. intros Hw.
  destruct (Z.eqb_spec word 0); [vm_compute; split; reflexivity|lia].
Qed.

Lemma initial_pos_nonzero (word : Z) : word <> 0 -> initial_pos word = word.
Proof.
  intros H. unfold initial_pos. now destruct (Z.eqb_spec word 0).
Qed.

(** When the division check passes, the product did not wrap. *)
Lemma no_overflow (nitems size : Z) :
  0 <= nitems -> 0 < size ->
  nitems = wrap64 (nitems * size) / size ->
  wrap64 (nitems * size) = nitems * size.
Proof.
  unfold wrap64. intros Hn Hs E.
  apply Z.mod_small. split; [nia|].
  pose proof (Z.mod_pos_bound (nitems * size) (2 ^ 64)) as Hb.
  pose proof (Z.mul_div_le ((nitems * size) mod 2 ^ 64) size Hs) as Hd.
  rewrite <- E in Hd. lia.
Qed.

(** A call either fails, leaving the word as it was, or returns and
    stores [granted]. *)
Lemma sol_calloc_cases (word nitems size : Z) :
  uint64 word -> uint64 nitems -> uint64 size ->
  sol_calloc word nitems size = (NULL, word) \/
  (1 <= size <= 2 ^ 63 /\
   0 <= nitems * size <= initial_pos word /\
   HEAP_START_ADDRESS + sizeof_ptr <= granted word nitems size /\
   sol_calloc word nitems size
     = (granted word nitems size, granted word nitems size)).
Proof.
  intros Hw Hn Hs. pose proof (initial_pos_range word Hw) as Hp.
  unfold uint64 in *. unfold sol_calloc.
  destruct (Z.eqb_spec size 0) as [->|Hs0]; [left; reflexivity|].
  cbn [orb].
  destruct (negb ((nitems =? 0) || false)
            && negb (nitems =? wrap64 (nitems * size) / size)) eqn:Ec;
    [left; reflexivity|].
  assert (Hb : wrap64 (nitems * size) = nitems * size).
  { apply andb_false_iff in Ec. destruct Ec as [Ec|Ec].
    - apply negb_false_iff in Ec. rewrite orb_false_r in Ec.
      apply Z.eqb_eq in Ec. subst nitems. reflexivity.
    - apply negb_false_iff, Z.eqb_eq in Ec. apply no_overflow; lia. }
  rewrite Hb.
  destruct (Z.ltb_spec (initial_pos word) (nitems * size)) as [Hlt|Hge].
  { left. rewrite Z.land_0_l. reflexivity. }
  destruct (Z_le_gt_dec size (2 ^ 63)) as [Hle|Hgt].
  - rewrite alignment_pow2 by lia.
    assert (Hk : 0 <= Z.log2_up size <= 63).
    { split; [apply Z.log2_up_nonneg|apply Z.log2_up_le_pow2; lia]. }
    rewrite round_down by (try exact Hk; nia).
    fold (granted word nitems size).
    destruct (Z.ltb_spec (granted word nitems size)
                (HEAP_START_ADDRESS + sizeof_ptr)) as [Hlow|Hhigh];
      [left; reflexivity|right].
    repeat split; (lia || nia || reflexivity).
  - left. rewrite alignment_wraps by lia.
    change (not64 (wrap64 (0 - 1))) with 0. rewrite Z.land_0_r.
    reflexivity.
Qed.

Lemma granted_le (word nitems size : Z) :
  granted word nitems size <= initial_pos word - nitems * size.
Proof.
  unfold granted. cbv zeta.
  assert (0 < 2 ^ Z.log2_up size)
    by (apply Z.pow_pos_nonneg; [lia|apply Z.log2_up_nonneg]).
  pose proof (Z.mod_pos_bound (initial_pos word - nitems * size)
                (2 ^ Z.log2_up size)). lia.
Qed.

Lemma granted_aligned (word nitems size : Z) :
  granted word nitems size mod 2 ^ Z.log2_up size = 0.
Proof.
  unfold granted. cbv zeta.
  assert (0 < 2 ^ Z.log2_up size)
    by (apply Z.pow_pos_nonneg; [lia|apply Z.log2_up_nonneg]).
  rewrite Zminus_mod, Z.mod_mod, Z.sub_diag by lia. reflexivity.
Qed.

(** Without any assumption on the arguments: a call that changes the
    word stores a value in the heap, not above the cursor it used. *)
Lemma sol_calloc_word (word nitems size : Z) :
  0 <= initial_pos word ->
  let '(p, word') := sol_calloc word nitems size in
  (p = NULL /\ word' = word) \/
  (p = word' /\
   HEAP_START_ADDRESS + sizeof_ptr <= word' <= initial_pos word).
Proof.
  intros Hp. unfold sol_calloc.
  destruct ((size =? 0)
            || negb ((nitems =? 0) || (size =? 0))
               && negb (nitems =? wrap64 (nitems * size) / size));
    [left; split; reflexivity|].
  set (bytes := wrap64 (nitems * size)).
  assert (Hbytes : 0 <= bytes) by (apply Z.mod_pos_bound; lia).
  set (pos := if initial_pos word <? bytes then 0
              else initial_pos word - bytes).
  assert (Hpos : 0 <= pos <= initial_pos word).
  { unfold pos. destruct (Z.ltb_spec (initial_pos word) bytes); lia. }
  pose proof (land_le_l pos (not64 (wrap64 (alignment size - 1)))
                (proj1 Hpos)) as Hland.
  destruct (Z.ltb_spec (Z.land pos (not64 (wrap64 (alignment size - 1))))
              (HEAP_START_ADDRESS + sizeof_ptr)) as [Hlow|Hhigh].
  - left. split; reflexivity.
  - right. split; [reflexivity|lia].
Qed.

End OneCall.

(** ** The claims on a single call *)

(** C2 (as stated, refuted).  After [sol_calloc(1, 8)] on a fresh heap
    the word is [HEAP_START_ADDRESS + HEAP_LENGTH - 8]; a request of
    [2^40] bytes then exceeds the cursor and returns null, but the word
    is not set to [0]. *)
Lemma sol_calloc_saturation_word_not_zeroed :
  ~ (initial_pos (HEAP_START_ADDRESS + HEAP_LENGTH - 8)
       < wrap64 (1 * 2 ^ 40) ->
     fst (sol_calloc (HEAP_START_ADDRESS + HEAP_LENGTH - 8) 1 (2 ^ 40))
       = NULL /\
     snd (sol_calloc (HEAP_START_ADDRESS + HEAP_LENGTH - 8) 1 (2 ^ 40))
       = 0).
Proof.
  intros H.
  assert (Hlt : initial_pos (HEAP_START_ADDRESS + HEAP_LENGTH - 8)
                < wrap64 (1 * 2 ^ 40)) by (vm_compute; reflexivity).
  destruct (H Hlt) as [_ H0]. vm_compute in H0. discriminate.
Qed.

(** C2 (amended).  When the cursor the call works with is smaller than
    the requested byte count, [sol_calloc] returns null and the word is
    left as it was: only the local copy of the cursor is set to [0]. *)
Theorem sol_calloc_saturation_keeps_word (word nitems size : Z) :
  initial_pos word < wrap64 (nitems * size) ->
  sol_calloc word nitems size = (NULL, word).
Proof.
  intros Hlt. unfold sol_calloc.
  destruct ((size =? 0)
            || negb ((nitems =? 0) || (size =? 0))
               && negb (nitems =? wrap64 (nitems * size) / size));
    [reflexivity|].
  apply Z.ltb_lt in Hlt. rewrite Hlt, Z.land_0_l. reflexivity.
Qed.

Lemma sol_calloc_saturation_keeps_word_witness :
  sol_calloc (HEAP_START_ADDRESS + HEAP_LENGTH - 8) 1 (2 ^ 40)
    = (NULL, HEAP_START_ADDRESS + HEAP_LENGTH - 8).
Proof.
  apply (sol_calloc_saturation_keeps_word
           (HEAP_START_ADDRESS + HEAP_LENGTH - 8) 1 (2 ^ 40)).
  vm_compute. reflexivity.
Defined.

(** C3.  A call that returns null leaves the word at
    [HEAP_START_ADDRESS] as it was before the call. *)
Theorem sol_calloc_null_keeps_word (word nitems size : Z) :
  fst (sol_calloc word nitems size) = NULL ->
  snd (sol_calloc word nitems size) = word.
Proof.
  unfold sol_calloc.
  destruct ((size =? 0)
            || negb ((nitems =? 0) || (size =? 0))
               && negb (nitems =? wrap64 (nitems * size) / size));
    [reflexivity|].
  match goal with
  | |- context [if ?c then _ else _] => destruct c eqn:E
  end; [reflexivity|].
  cbn [fst snd]. intros H. rewrite H in E. discriminate.
Qed.

Lemma sol_calloc_null_keeps_word_witness :
  snd (sol_calloc (HEAP_START_ADDRESS + 16) 1 64) = HEAP_START_ADDRESS + 16.
Proof.
  apply (sol_calloc_null_keeps_word (HEAP_START_ADDRESS + 16) 1 64).
  vm_compute. reflexivity.
Defined.

(** C4.  [sol_calloc] returns null when [size] is [0], and when [size]
    is not [0] and [nitems] differs from [bytes / size] for the wrapped
    product [bytes]; so [sol_calloc(0xFFFFFFFFFFFFFFFF, 2)] is null. *)
Theorem sol_calloc_overflow_null (word nitems size : Z) :
  size = 0 \/ (size <> 0 /\ nitems <> wrap64 (nitems * size) / size) ->
  fst (sol_calloc word nitems size) = NULL /\
  fst (sol_calloc word 0xFFFFFFFFFFFFFFFF 2) = NULL.
Proof.
  intros H. split; [|reflexivity].
  unfold sol_calloc. destruct H as [->|[Hs Hn]]; [reflexivity|].
  apply Z.eqb_neq in Hs. rewrite Hs. cbn [orb].
  assert (Hn0 : nitems <> 0).
  { intros ->. apply Hn. rewrite Z.mul_0_l. reflexivity. }
  apply Z.eqb_neq in Hn0, Hn. rewrite Hn0, Hn. reflexivity.
Qed.

Lemma sol_calloc_overflow_null_witness :
  fst (sol_calloc 0 (2 ^ 63) 6) = NULL.
Proof.
  apply (sol_calloc_overflow_null 0 (2 ^ 63) 6).
  right. split; vm_compute; discriminate.
Defined.

(** C5.  A successful call returns a non-null address that is a
    multiple of the smallest power of two not below [size] and is at
    least [HEAP_START_ADDRESS + 8]; on a fresh heap [sol_calloc(1, 8)]
    returns an address between [HEAP_START_ADDRESS + 8] and
    [HEAP_START_ADDRESS + HEAP_LENGTH - 8] that is a multiple of 8. *)
Theorem sol_calloc_success_aligned (word nitems size : Z) :
  uint64 word -> uint64 nitems -> uint64 size ->
  fst (sol_calloc word nitems size) <> NULL ->
  (exists a, smallest_pow2_ge size a /\
             fst (sol_calloc word nitems size) mod a = 0) /\
  HEAP_START_ADDRESS + 8 <= fst (sol_calloc word nitems size) /\
  (let A := fst (sol_calloc 0 1 8) in
   A <> NULL /\
   HEAP_START_ADDRESS + 8 <= A <= HEAP_START_ADDRESS + HEAP_LENGTH - 8 /\
   A mod 8 = 0).
Proof.
  intros Hw Hn Hs Hok.
  destruct (sol_calloc_cases word nitems size Hw Hn Hs)
    as [E|(Hsz & Hb & Hlow & E)].
  - rewrite E in Hok. now elim Hok.
  - rewrite E. cbn [fst]. split; [|split].
    + exists (2 ^ Z.log2_up size). split.
      * apply smallest_pow2_ge_log2_up. lia.
      * apply granted_aligned.
    + exact Hlow.
    + vm_compute. repeat split; discriminate.
Qed.

Lemma sol_calloc_success_aligned_witness :
  HEAP_START_ADDRESS + 8 <= fst (sol_calloc 0 3 5).
Proof.
  apply (sol_calloc_success_aligned 0 3 5);
    vm_compute; repeat split; (reflexivity || discriminate).
Defined.

(** C10.  On a fresh heap, for [1 <= size <= 32768], [sol_calloc(0,
    size)] returns the non-null address
    [HEAP_START_ADDRESS + HEAP_LENGTH], the first address past the heap
    region, and stores it in the word. *)
Theorem sol_calloc_zero_items (size : Z) :
  1 <= size <= 32768 ->
  sol_calloc 0 0 size
    = (HEAP_START_ADDRESS + HEAP_LENGTH, HEAP_START_ADDRESS + HEAP_LENGTH) /\
  HEAP_START_ADDRESS + HEAP_LENGTH <> NULL.
Proof.
  intros Hs. split; [|discriminate].
  assert (Hu : uint64 0) by (unfold uint64; lia).
  assert (Hsz : uint64 size) by (unfold uint64; lia).
  assert (Hk : 0 <= Z.log2_up size <= 15).
  { split; [apply Z.log2_up_nonneg|].
    apply Z.log2_up_le_pow2; [lia|]. change (2 ^ 15) with 32768. lia. }
  assert (Hmod : initial_pos 0 mod 2 ^ Z.log2_up size = 0).
  { change (initial_pos 0) with (393217 * 2 ^ 15).
    replace 15 with ((15 - Z.log2_up size) + Z.log2_up size) by lia.
    rewrite Z.pow_add_r, Z.mul_assoc by lia.
    apply Z.mod_mul, Z.pow_nonzero; lia. }
  unfold sol_calloc.
  replace (size =? 0) with false by (symmetry; apply Z.eqb_neq; lia).
  cbn [Z.eqb orb negb andb]. rewrite Z.mul_0_l.
  change (wrap64 0) with 0. change (initial_pos 0 <? 0) with false.
  cbv iota. rewrite Z.sub_0_r.
  rewrite alignment_pow2
    by (change (2 ^ 63) with 9223372036854775808; lia).
  rewrite round_down.
  2:{ vm_compute. split; [discriminate|reflexivity]. }
  2:{ lia. }
  rewrite Hmod, Z.sub_0_r. reflexivity.
Qed.

Lemma sol_calloc_zero_items_witness :
  sol_calloc 0 0 24
    = (HEAP_START_ADDRESS + HEAP_LENGTH, HEAP_START_ADDRESS + HEAP_LENGTH).
Proof.
  apply (sol_calloc_zero_items 24). lia.
Defined.

(** ** Sequences of calls *)

Section Sequences.

Lemma run_callocs_cons (word nitems size : Z) (reqs : list (Z * Z)) :
  run_callocs word ((nitems, size) :: reqs) =
  let r := sol_calloc word nitems size in
  let rest := run_callocs (snd r) reqs in
  ((if fst r =? NULL then fst rest
    else {| base := fst r; a_nitems := nitems; a_size := size |} :: fst rest),
   snd rest).
Proof.
  cbn [run_callocs].
  destruct (sol_calloc word nitems size) as [p word'].
  cbn [fst snd]. now destruct (run_callocs word' reqs).
Qed.

Lemma cursor_ok_initial_pos (word : Z) :
  cursor_ok word ->
  0 < initial_pos word <= HEAP_START_ADDRESS + HEAP_LENGTH.
Proof.
  unfold cursor_ok, initial_pos. intros H.
  destruct (Z.eqb_spec word 0) as [->|Hne].
  - vm_compute. split; [reflexivity|discriminate].
  - specialize (H Hne). revert H.
    unfold HEAP_START_ADDRESS, HEAP_LENGTH, sizeof_ptr. lia.
Qed.

Lemma sol_calloc_cursor_ok (word nitems size : Z) :
  cursor_ok word -> cursor_ok (snd (sol_calloc word nitems size)).
Proof.
  intros Hok. pose proof (cursor_ok_initial_pos word Hok) as Hp.
  pose proof (sol_calloc_word word nitems size) as H.
  destruct (sol_calloc word nitems size) as [p word'].
  cbn [snd]. destruct H as [[_ ->]|[_ H]]; [lia|exact Hok|].
  intros _. lia.
Qed.

Lemma run_callocs_cursor_ok (reqs : list (Z * Z)) : forall word,
  cursor_ok word -> cursor_ok (snd (run_callocs word reqs)).
Proof.
  induction reqs as [|[nitems size] reqs IH]; intros word Hok; [exact Hok|].
  rewrite run_callocs_cons. cbn [snd].
  apply IH, sol_calloc_cursor_ok, Hok.
Qed.

Lemma below_disjoint (x y : alloc) : below (base x) y -> disjoint x y.
Proof.
  unfold below, disjoint. intros (_ & Hy & Htop) q [Hx Hq]. lia.
Qed.

Lemma disjoint_sym (x y : alloc) : disjoint x y -> disjoint y x.
Proof.
  unfold disjoint. intros H q [Hy Hx]. apply (H q). now split.
Qed.

Lemma run_callocs_grants (reqs : list (Z * Z)) : forall word,
  uint64 word -> Forall valid_request reqs ->
  Forall (below (initial_pos word)) (fst (run_callocs word reqs)) /\
  Forall aligned (fst (run_callocs word reqs)) /\
  ForallOrdPairs disjoint (fst (run_callocs word reqs)).
Proof.
  induction reqs as [|[nitems size] reqs IH]; intros word Hw Hv.
  - cbn. repeat split; constructor.
  - inversion Hv as [|r l [Hn Hs] Hv' Heq]; subst. cbn [fst snd] in Hn, Hs.
    rewrite run_callocs_cons. cbv zeta. cbn [fst].
    pose proof (initial_pos_range word Hw) as Hp.
    destruct (sol_calloc_cases word nitems size Hw Hn Hs)
      as [E|(Hsz & Hb & Hlow & E)]; rewrite E; cbn [fst snd].
    + rewrite Z.eqb_refl. apply IH; assumption.
    + set (g := granted word nitems size) in *.
      pose proof (granted_le word nitems size) as Hle. fold g in Hle.
      assert (Hg0 : g <> 0)
        by (revert Hlow; unfold HEAP_START_ADDRESS, sizeof_ptr; lia).
      assert (Hgw : uint64 g)
        by (revert Hlow; unfold uint64, HEAP_START_ADDRESS, sizeof_ptr; lia).
      replace (g =? NULL) with false by (symmetry; now apply Z.eqb_neq).
      destruct (IH g Hgw Hv') as (Hbelow & Hal & Hdis).
      rewrite (initial_pos_nonzero g Hg0) in Hbelow.
      split; [|split].
      * constructor.
        -- unfold below. cbn [base a_nitems a_size]. lia.
        -- eapply Forall_impl; [|exact Hbelow].
           intros a (H1 & H2 & H3). unfold below. lia.
      * constructor; [|exact Hal].
        exists (2 ^ Z.log2_up size). cbn [base a_size]. split.
        -- apply smallest_pow2_ge_log2_up. lia.
        -- apply granted_aligned.
      * constructor; [|exact Hdis].
        eapply Forall_impl; [|exact Hbelow].
        intros a Ha. apply below_disjoint. exact Ha.
Qed.

Lemma ordered_pairs_nth {A : Type} (R : A -> A -> Prop) (l : list A) :
  ForallOrdPairs R l ->
  forall i j x y, (i < j)%nat ->
    nth_error l i = Some x -> nth_error l j = Some y -> R x y.
Proof.
  induction 1 as [|a l Ha Hl IH]; intros i j x y Hij Hi Hj.
  - destruct i; discriminate.
  - destruct j as [|j]; [lia|]. cbn [nth_error] in Hj.
    destruct i as [|i]; cbn [nth_error] in Hi.
    + injection Hi as <-.
      rewrite Forall_forall in Ha. eapply Ha, nth_error_In, Hj.
    + apply (IH i j); (lia || assumption).
Qed.

End Sequences.

(** C6.  Every [sol_calloc] call preserves the predicate "the word is
    [0] or lies between [HEAP_START_ADDRESS + 8] and
    [HEAP_START_ADDRESS + HEAP_LENGTH]"; hence it holds after every
    sequence of calls, in particular one started on a fresh heap. *)
Theorem cursor_ok_preserved
    (word nitems size : Z) (reqs : list (Z * Z)) :
  cursor_ok word ->
  cursor_ok (snd (sol_calloc word nitems size)) /\
  cursor_ok (snd (run_callocs word reqs)) /\
  cursor_ok (snd (run_callocs 0 reqs)).
Proof.
  intros Hok. split; [|split].
  - now apply sol_calloc_cursor_ok.
  - now apply run_callocs_cursor_ok.
  - apply run_callocs_cursor_ok. intros H. now elim H.
Qed.

Lemma cursor_ok_preserved_witness :
  cursor_ok (snd (run_callocs (HEAP_START_ADDRESS + 4096)
                    [(1, 4096); (3, 5); (1, 4096); (0, 8)])).
Proof.
  apply (cursor_ok_preserved (HEAP_START_ADDRESS + 4096) 1 8).
  intros _. vm_compute. split; discriminate.
Defined.

(** C7.  Among the allocations granted by any sequence of calls
    started on a fresh heap, the byte ranges
    [[base, base + nitems * size)] of two distinct ones do not
    intersect, and every base is a multiple of the smallest power of two
    not below the [size] it was requested with. *)
Theorem callocs_disjoint_aligned (reqs : list (Z * Z)) :
  Forall valid_request reqs ->
  let grants := fst (run_callocs 0 reqs) in
  (forall i j x y, i <> j ->
     nth_error grants i = Some x -> nth_error grants j = Some y ->
     disjoint x y) /\
  (forall i x, nth_error grants i = Some x -> aligned x).
Proof.
  intros Hv grants.
  assert (Hu : uint64 0) by (unfold uint64; lia).
  destruct (run_callocs_grants reqs 0 Hu Hv) as (_ & Hal & Hdis).
  fold grants in Hal, Hdis. split.
  - intros i j x y Hij Hi Hj.
    destruct (Nat.lt_ge_cases i j) as [Hlt|Hge].
    + exact (ordered_pairs_nth disjoint grants Hdis i j x y Hlt Hi Hj).
    + apply disjoint_sym.
      apply (ordered_pairs_nth disjoint grants Hdis j i y x);
        (lia || assumption).
  - intros i x Hi. rewrite Forall_forall in Hal.
    eapply Hal, nth_error_In, Hi.
Qed.

Lemma callocs_disjoint_aligned_witness :
  let grants := fst (run_callocs 0 [(2, 24); (0, 8); (1, 40000); (3, 5)]) in
  length grants = 3%nat /\
  forall x y, nth_error grants 0 = Some x -> nth_error grants 2 = Some y ->
    disjoint x y.
Proof.
  cbv zeta. split; [reflexivity|]. intros x y.
  apply (callocs_disjoint_aligned [(2, 24); (0, 8); (1, 40000); (3, 5)]).
  - repeat constructor; cbn [fst snd]; vm_compute; discriminate || reflexivity.
  - discriminate.
Defined.

(** * Further properties of the byte primitives *)

Section Copying.

Variables dst src : addr.

Lemma load_store_same (m : mem) (p : addr) (v : byte) :
  load (store m p v) p = v.
Proof. unfold load, store. now rewrite Z.eqb_refl. Qed.

Lemma load_store_other (m : mem) (p q : addr) (v : byte) :
  q <> p -> load (store m p v) q = load m q.
Proof.
  intros H. unfold load, store. now destruct (Z.eqb_spec q p).
Qed.

(** The forward loop writes only to [dst + i .. dst + i + n). *)
Lemma memcpy_loop_frame (n : nat) : forall i m q,
  q < dst + i \/ dst + i + Z.of_nat n <= q ->
  load (memcpy_loop n i dst src m) q = load m q.
Proof.
  induction n as [|n IH]; intros i m q Hq; [reflexivity|].
  cbn [memcpy_loop]. rewrite IH by lia.
  apply load_store_other. lia.
Qed.

(** The forward loop copies faithfully when no byte of the source is
    overwritten before it is read. *)
Lemma memcpy_loop_copy (n : nat) : forall i m j,
  0 <= i -> i <= j < i + Z.of_nat n ->
  dst <= src \/ src + i + Z.of_nat n <= dst ->
  load (memcpy_loop n i dst src m) (dst + j) = load m (src + j).
Proof.
  induction n as [|n IH]; intros i m j Hi Hj Hsafe; [lia|].
  cbn [memcpy_loop].
  destruct (Z.eq_dec j i) as [->|Hne].
  - rewrite memcpy_loop_frame by lia. apply load_store_same.
  - rewrite IH by lia. apply load_store_other. lia.
Qed.

(** The backward loop writes only to [dst .. dst + n). *)
Lemma memmove_back_loop_frame (n : nat) : forall m q,
  q < dst \/ dst + Z.of_nat n <= q ->
  load (memmove_back_loop n dst src m) q = load m q.
Proof.
  induction n as [|n IH]; intros m q Hq; [reflexivity|].
  cbn [memmove_back_loop]. rewrite IH by lia.
  apply load_store_other. lia.
Qed.

(** The backward loop copies faithfully when no byte of the source is
    overwritten before it is read. *)
Lemma memmove_back_loop_copy (n : nat) : forall m j,
  0 <= j < Z.of_nat n ->
  src <= dst \/ dst + Z.of_nat n <= src ->
  load (memmove_back_loop n dst src m) (dst + j) = load m (src + j).
Proof.
  induction n as [|n IH]; intros m j Hj Hsafe; [lia|].
  cbn [memmove_back_loop].
  destruct (Z.eq_dec j (Z.of_nat n)) as [->|Hne].
  - rewrite memmove_back_loop_frame by lia. apply load_store_same.
  - rewrite IH by lia. apply load_store_other. lia.
Qed.

End Copying.

Section Filling.

Lemma byte_val_of_int (c : Z) : byte_val (byte_of_int c) = c mod 256.
Proof.
  unfold byte_of_int, byte_val.
  pose proof (Z.mod_pos_bound c 256 ltac:(lia)) as Hc.
  pose proof (Byte.to_of_N_option_map (Z.to_N (c mod 256))) as H.
  replace (Z.to_N (c mod 256) <=? 255)%N with true in H
    by (symmetry; apply N.leb_le; lia).
  destruct (Byte.of_N (Z.to_N (c mod 256))) as [b|]; [|discriminate].
  cbn [option_map] in H. injection H as ->. lia.
Qed.

Lemma memset_loop_frame (c : Z) (n : nat) : forall a m q,
  q < a \/ a + Z.of_nat n <= q ->
  load (memset_loop n a c m) q = load m q.
Proof.
  induction n as [|n IH]; intros a m q Hq; [reflexivity|].
  cbn [memset_loop]. rewrite IH by lia.
  apply load_store_other. lia.
Qed.

Lemma memset_loop_fill (c : Z) (n : nat) : forall a m q,
  a <= q < a + Z.of_nat n ->
  load (memset_loop n a c m) q = byte_of_int c.
Proof.
  induction n as [|n IH]; intros a m q Hq; [lia|].
  cbn [memset_loop].
  destruct (Z.eq_dec q a) as [->|Hne].
  - rewrite memset_loop_frame by lia. apply load_store_same.
  - apply IH. lia.
Qed.

End Filling.

Section Comparing.

Variables (m : mem) (s1 s2 : addr).

Lemma memcmp_loop_range (n : nat) : forall i,
  0 <= memcmp_loop n i s1 s2 m <= 255.
Proof.
  induction n as [|n IH]; intros i; cbn [memcmp_loop]; [lia|].
  pose proof (byte_diff_range (load m (s1 + i)) (load m (s2 + i))).
  destruct (byte_diff (load m (s1 + i)) (load m (s2 + i)) =? 0);
    [apply IH|lia].
Qed.

Lemma byte_diff_swap (a b : byte) :
  byte_diff b a = (- byte_diff a b) mod 256.
Proof.
  unfold byte_diff.
  rewrite <- (Z.sub_0_l ((byte_val a - byte_val b) mod 256)).
  rewrite Zminus_mod_idemp_r. f_equal. lia.
Qed.

Lemma memcmp_loop_swap (n : nat) : forall i,
  memcmp_loop n i s2 s1 m = (- memcmp_loop n i s1 s2 m) mod 256.
Proof.
  induction n as [|n IH]; intros i; cbn [memcmp_loop]; [reflexivity|].
  rewrite (byte_diff_swap (load m (s1 + i)) (load m (s2 + i))).
  destruct (Z.eqb_spec (byte_diff (load m (s1 + i)) (load m (s2 + i))) 0)
    as [E|E].
  - rewrite E. cbn. apply IH.
  - pose proof (byte_diff_range (load m (s1 + i)) (load m (s2 + i))) as Hr.
    replace (- byte_diff (load m (s1 + i)) (load m (s2 + i)))
      with (256 - byte_diff (load m (s1 + i)) (load m (s2 + i))
            + (-1) * 256) by lia.
    rewrite Z.mod_add, Z.mod_small by lia.
    destruct (Z.eqb_spec
                (256 - byte_diff (load m (s1 + i)) (load m (s2 + i))) 0);
      [lia|reflexivity].
Qed.

End Comparing.

Section Scanning.

Variable m : mem.

(** A result of the scan is the offset of a zero byte that no zero byte
    precedes, found within the bytes the fuel allows to inspect. *)
Lemma strlen_loop_sound (fuel : nat) : forall ref s r,
  strlen_loop fuel ref s m = Some r ->
  exists k, 0 <= k < 4 * Z.of_nat fuel /\
    r = wrap64 (s - ref + k) /\
    is_nul (load m (s + k)) = true /\
    forall j, 0 <= j < k -> is_nul (load m (s + j)) = false.
Proof.
  induction fuel as [|fuel IH]; intros ref s r H; [discriminate|].
  cbn [strlen_loop] in H.
  destruct (is_nul (load m (s + 0))) eqn:E0.
  { injection H as <-. exists 0. repeat split; (lia || assumption). }
  destruct (is_nul (load m (s + 1))) eqn:E1.
  { injection H as <-. exists 1. repeat split; try (lia || assumption).
    intros j Hj. now replace j with 0 by lia. }
  destruct (is_nul (load m (s + 2))) eqn:E2.
  { injection H as <-. exists 2. repeat split; try (lia || assumption).
    intros j Hj.
    assert (Hc : j = 0 \/ j = 1) by lia.
    destruct Hc as [-> | ->]; assumption. }
  destruct (is_nul (load m (s + 3))) eqn:E3.
  { injection H as <-. exists 3. repeat split; try (lia || assumption).
    intros j Hj.
    assert (Hc : j = 0 \/ j = 1 \/ j = 2) by lia.
    destruct Hc as [-> | [-> | ->]]; assumption. }
  destruct (IH ref (s + 4) r H) as (k & Hk & Hr & Hnul & Hlow).
  exists (k + 4). repeat split.
  - lia.
  - lia.
  - rewrite Hr. f_equal. lia.
  - now replace (s + (k + 4)) with (s + 4 + k) by lia.
  - intros j Hj.
    assert (Hc : j = 0 \/ j = 1 \/ j = 2 \/ j = 3 \/ 4 <= j) by lia.
    destruct Hc as [-> | [-> | [-> | [-> | Hc]]]]; try assumption.
    replace (s + j) with (s + 4 + (j - 4)) by lia. apply Hlow. lia.
Qed.

End Scanning.

(** X1.  For non-null pointers, when the destination starts at or before
    the source or the destination starts after the source's end,
    [sol_memcpy] leaves in [dst[i]] the byte [src[i]] held before the
    call, for every [i] below [len]. *)
Theorem sol_memcpy_copies (m : mem) (dst src : addr) (len i : Z) :
  dst <> NULL -> src <> NULL ->
  dst <= src \/ src + len <= dst ->
  0 <= i < len ->
  load (sol_memcpy dst src len m) (dst + i) = load m (src + i).
Proof.
  intros Hd Hs Hsafe Hi. unfold sol_memcpy.
  apply Z.eqb_neq in Hd, Hs. rewrite Hd, Hs. cbn [orb].
  apply memcpy_loop_copy; lia.
Qed.

Lemma sol_memcpy_copies_witness :
  load (sol_memcpy buf (buf + 2) 6 abcdefgh) (buf + 5)
    = load abcdefgh (buf + 2 + 5).
Proof.
  apply (sol_memcpy_copies abcdefgh buf (buf + 2) 6 5).
  - discriminate.
  - discriminate.
  - left. vm_compute. discriminate.
  - lia.
Defined.

(** X2.  [sol_memcpy] changes no byte outside [dst .. dst + len), and
    changes nothing at all when a pointer is null or [len] is not
    positive. *)
Theorem sol_memcpy_frame (m : mem) (dst src : addr) (len q : Z) :
  q < dst \/ dst + len <= q \/ dst = NULL \/ src = NULL \/ len <= 0 ->
  load (sol_memcpy dst src len m) q = load m q.
Proof.
  intros H. unfold sol_memcpy.
  destruct (Z.eqb_spec dst NULL) as [Hd|Hd]; [reflexivity|].
  destruct (Z.eqb_spec src NULL) as [Hs|Hs]; [reflexivity|].
  cbn [orb]. apply memcpy_loop_frame. lia.
Qed.

Lemma sol_memcpy_frame_witness :
  load (sol_memcpy buf (buf + 2) 6 abcdefgh) (buf + 6)
    = load abcdefgh (buf + 6).
Proof.
  apply (sol_memcpy_frame abcdefgh buf (buf + 2) 6 (buf + 6)).
  right. left. vm_compute. discriminate.
Defined.

(** X3.  After [sol_memcpy] between two non-null regions of [len] bytes
    that do not overlap, [sol_memcmp] of the two regions over [len]
    bytes is [0]. *)
Theorem sol_memcpy_then_memcmp (m : mem) (dst src : addr) (len : Z) :
  dst <> NULL -> src <> NULL ->
  dst + len <= src \/ src + len <= dst ->
  sol_memcmp dst src len (sol_memcpy dst src len m) = 0.
Proof.
  intros Hd Hs Hsafe. unfold sol_memcmp, sol_memcpy.
  apply Z.eqb_neq in Hd, Hs. rewrite Hd, Hs. cbn [orb].
  apply memcmp_loop_equal. intros j Hj.
  rewrite <- (Z.add_0_l (Z.of_nat (Z.to_nat len))) in Hj.
  rewrite memcpy_loop_copy by lia.
  symmetry. apply memcpy_loop_frame. lia.
Qed.

Lemma sol_memcpy_then_memcmp_witness :
  sol_memcmp (buf + 100) buf 8 (sol_memcpy (buf + 100) buf 8 abcdefgh) = 0.
Proof.
  apply (sol_memcpy_then_memcmp abcdefgh (buf + 100) buf 8).
  - discriminate.
  - discriminate.
  - right. vm_compute. discriminate.
Defined.

(** X4.  For non-null pointers, when the source starts before the
    destination (overlapping or not), or the destination region ends at
    or before the source, [sol_memmove] leaves in [dst[i]] the byte
    [src[i]] held before the call, for every [i] below [len]. *)
Theorem sol_memmove_copies (m : mem) (dst src : addr) (len i : Z) :
  dst <> NULL -> src <> NULL ->
  src < dst \/ dst + len <= src ->
  0 <= i < len ->
  load (sol_memmove dst src len m) (dst + i) = load m (src + i).
Proof.
  intros Hd Hs Hsafe Hi. unfold sol_memmove. cbv zeta.
  apply Z.eqb_neq in Hd, Hs. rewrite Hd, Hs. cbn [orb].
  replace (src =? dst) with false by (symmetry; apply Z.eqb_neq; lia).
  destruct (Z.ltb_spec dst src) as [Hlt|Hge].
  - rewrite memmove_back_loop_copy by lia.
    unfold sol_memcpy. rewrite Hd, Hs. cbn [orb].
    apply memcpy_loop_frame. lia.
  - apply memmove_back_loop_copy; lia.
Qed.

Lemma sol_memmove_copies_witness :
  load (sol_memmove (buf + 2) buf 6 abcdefgh) (buf + 2 + 3)
    = load abcdefgh (buf + 3).
Proof.
  apply (sol_memmove_copies abcdefgh (buf + 2) buf 6 3).
  - discriminate.
  - discriminate.
  - left. reflexivity.
  - lia.
Defined.

(** X5.  [sol_memmove] changes no byte outside [dst .. dst + len), and
    changes nothing at all when a pointer is null, the pointers are
    equal, or [len] is not positive. *)
Theorem sol_memmove_frame (m : mem) (dst src : addr) (len q : Z) :
  q < dst \/ dst + len <= q \/
  dst = NULL \/ src = NULL \/ src = dst \/ len <= 0 ->
  load (sol_memmove dst src len m) q = load m q.
Proof.
  intros H. unfold sol_memmove. cbv zeta.
  destruct (Z.eqb_spec dst NULL) as [Hd|Hd]; [reflexivity|].
  destruct (Z.eqb_spec src NULL) as [Hs|Hs]; [reflexivity|].
  destruct (Z.eqb_spec src dst) as [He|He]; [reflexivity|].
  cbn [orb]. rewrite memmove_back_loop_frame by lia.
  destruct (dst <? src); [|reflexivity].
  unfold sol_memcpy.
  replace (dst =? NULL) with false by (symmetry; now apply Z.eqb_neq).
  replace (src =? NULL) with false by (symmetry; now apply Z.eqb_neq).
  cbn [orb]. apply memcpy_loop_frame. lia.
Qed.

Lemma sol_memmove_frame_witness :
  load (sol_memmove buf (buf + 2) 6 abcdefgh) (buf + 7)
    = load abcdefgh (buf + 7).
Proof.
  apply (sol_memmove_frame abcdefgh buf (buf + 2) 6 (buf + 7)).
  right. left. vm_compute. discriminate.
Defined.

(** X6.  The result of [sol_memcmp] always lies between [0] and [255]:
    it is never negative, whatever the order of the differing bytes. *)
Theorem sol_memcmp_range (m : mem) (a b : addr) (n : Z) :
  0 <= sol_memcmp a b n m <= 255.
Proof.
  unfold sol_memcmp.
  destruct ((a =? NULL) || (b =? NULL)); [lia|apply memcmp_loop_range].
Qed.

(** X7.  For non-null pointers, exchanging the two arguments of
    [sol_memcmp] negates the result modulo 256: a result [0] stays [0]
    and a result [r > 0] becomes [256 - r]. *)
Theorem sol_memcmp_swap (m : mem) (a b : addr) (n : Z) :
  a <> NULL -> b <> NULL ->
  sol_memcmp b a n m = (- sol_memcmp a b n m) mod 256.
Proof.
  intros Ha Hb. unfold sol_memcmp.
  apply Z.eqb_neq in Ha, Hb. rewrite Ha, Hb. cbn [orb].
  apply memcmp_loop_swap.
Qed.

Lemma sol_memcmp_swap_witness :
  sol_memcmp (buf + 20) buf 3 (place buf fox_dog)
    = (- sol_memcmp buf (buf + 20) 3 (place buf fox_dog)) mod 256.
Proof.
  apply (sol_memcmp_swap (place buf fox_dog) buf (buf + 20) 3);
    discriminate.
Defined.

(** X8.  For a non-null [b], after [sol_memset b c len] every byte of
    [b .. b + len) holds the low eight bits of [c]. *)
Theorem sol_memset_fills (m : mem) (b : addr) (c len q : Z) :
  b <> NULL -> b <= q < b + len ->
  byte_val (load (sol_memset b c len m) q) = c mod 256.
Proof.
  intros Hb Hq. unfold sol_memset. cbv zeta.
  apply Z.eqb_neq in Hb. rewrite Hb.
  rewrite memset_loop_fill by lia. apply byte_val_of_int.
Qed.

Lemma sol_memset_fills_witness :
  byte_val (load (sol_memset buf (-2) 8 abcdefgh) (buf + 7)) = (-2) mod 256.
Proof.
  apply (sol_memset_fills abcdefgh buf (-2) 8 (buf + 7)).
  - discriminate.
  - vm_compute. split; [discriminate|reflexivity].
Defined.

(** X9.  [sol_memset] changes no byte outside [b .. b + len), and
    changes nothing at all when [b] is null or [len] is [0]. *)
Theorem sol_memset_frame (m : mem) (b : addr) (c len q : Z) :
  q < b \/ b + len <= q \/ b = NULL \/ len <= 0 ->
  load (sol_memset b c len m) q = load m q.
Proof.
  intros H. unfold sol_memset. cbv zeta.
  destruct (Z.eqb_spec b NULL) as [Hb|Hb]; [reflexivity|].
  apply memset_loop_frame. lia.
Qed.

Lemma sol_memset_frame_witness :
  load (sol_memset buf 0 4 abcdefgh) (buf + 4) = load abcdefgh (buf + 4).
Proof.
  apply (sol_memset_frame abcdefgh buf 0 4 (buf + 4)).
  right. left. vm_compute. discriminate.
Defined.

(** X10.  Whenever [sol_strlen] returns a result for a non-null [s], the
    result is the offset [k] of a zero byte of [s] that no zero byte
    precedes (reduced modulo [2^64]); the scan never reports a length
    without a terminator at that offset. *)
Theorem sol_strlen_sound (m : mem) (s : addr) (fuel : nat) (r : Z) :
  s <> NULL ->
  sol_strlen fuel s m = Some r ->
  exists k, 0 <= k < 4 * Z.of_nat fuel /\
    r = wrap64 k /\
    is_nul (load m (s + k)) = true /\
    forall j, 0 <= j < k -> is_nul (load m (s + j)) = false.
Proof.
  intros Hs H. unfold sol_strlen in H. cbv zeta in H.
  apply Z.eqb_neq in Hs. rewrite Hs in H.
  destruct (strlen_loop_sound m fuel s s r H) as (k & Hk & Hr & Hnul & Hlow).
  exists k. repeat split; try (lia || assumption).
  rewrite Hr. f_equal. lia.
Qed.

Lemma sol_strlen_sound_witness :
  exists k, 0 <= k < 4 * Z.of_nat 5 /\
    19 = wrap64 k /\
    is_nul (load (place buf fox_dog) (buf + k)) = true /\
    forall j, 0 <= j < k ->
      is_nul (load (place buf fox_dog) (buf + j)) = false.
Proof.
  apply (sol_strlen_sound (place buf fox_dog) buf 5 19).
  - discriminate.
  - reflexivity.
Defined.

(** X11.  Filling [len] bytes at a non-null [b] with a value whose low
    eight bits are not zero, when the byte at [b + len] is zero, makes
    [sol_strlen b] return [len]. *)
Theorem sol_memset_then_strlen
    (m : mem) (b : addr) (c len : Z) (fuel : nat) :
  0 < b -> b + len < 2 ^ 64 -> 0 <= len ->
  c mod 256 <> 0 ->
  is_nul (load m (b + len)) = true ->
  len / 4 < Z.of_nat fuel ->
  sol_strlen fuel b (sol_memset b c len m) = Some len.
Proof.
  intros Hb Hend Hlen Hc Hnul Hfuel.
  unfold sol_strlen, sol_memset. cbv zeta.
  replace (b =? NULL) with false
    by (symmetry; apply Z.eqb_neq; unfold NULL; lia).
  rewrite (strlen_loop_first_nul _ fuel b b len).
  - f_equal. replace (b - b + len) with len by lia.
    unfold wrap64. apply Z.mod_small. lia.
  - exact Hlen.
  - intros j Hj. rewrite memset_loop_fill by lia.
    unfold is_nul. rewrite byte_val_of_int. now apply Z.eqb_neq.
  - rewrite memset_loop_frame by lia. exact Hnul.
  - exact Hfuel.
Qed.

Lemma sol_memset_then_strlen_witness :
  sol_strlen 3 buf (sol_memset buf 65 8 abcdefgh) = Some 8.
Proof.
  apply (sol_memset_then_strlen abcdefgh buf 65 8 3).
  - reflexivity.
  - reflexivity.
  - lia.
  - vm_compute. discriminate.
  - reflexivity.
  - reflexivity.
Defined.

(** * Further properties of the allocator *)

Section Capacity.

(** The conditions under which a call succeeds are also sufficient. *)
Lemma sol_calloc_success (word nitems size : Z) :
  uint64 word -> 0 <= nitems -> 1 <= size <= 2 ^ 63 ->
  nitems * size <= initial_pos word ->
  HEAP_START_ADDRESS + sizeof_ptr <= granted word nitems size ->
  sol_calloc word nitems size
    = (granted word nitems size, granted word nitems size).
Proof.
  intros Hw Hn Hs Hb Hg. pose proof (initial_pos_range word Hw) as Hp.
  unfold sol_calloc.
  assert (Hwrap : wrap64 (nitems * size) = nitems * size)
    by (unfold wrap64; apply Z.mod_small; nia).
  rewrite Hwrap.
  replace (size =? 0) with false by (symmetry; apply Z.eqb_neq; lia).
  rewrite Z.div_mul, Z.eqb_refl by lia.
  cbn [orb negb]. rewrite andb_false_r.
  replace (initial_pos word <? nitems * size) with false
    by (symmetry; apply Z.ltb_ge; lia).
  rewrite alignment_pow2 by lia.
  assert (Hk : 0 <= Z.log2_up size <= 63).
  { split; [apply Z.log2_up_nonneg|apply Z.log2_up_le_pow2; lia]. }
  rewrite round_down by (try exact Hk; nia).
  fold (granted word nitems size).
  replace (granted word nitems size <? HEAP_START_ADDRESS + sizeof_ptr)
    with false by (symmetry; apply Z.ltb_ge; lia).
  reflexivity.
Qed.

(** Rounding down to a coarser power of two from a lower value gives a
    lower result. *)
Lemma round_down_mono (a b j k : Z) :
  0 <= j <= k -> a <= b ->
  a - a mod 2 ^ k <= b - b mod 2 ^ j.
Proof.
  intros Hjk Hab.
  assert (Hj : 0 < 2 ^ j) by (apply Z.pow_pos_nonneg; lia).
  assert (Hd : 0 < 2 ^ (k - j)) by (apply Z.pow_pos_nonneg; lia).
  assert (Hk : 2 ^ k = 2 ^ j * 2 ^ (k - j))
    by (rewrite <- Z.pow_add_r by lia; f_equal; lia).
  assert (Hk0 : 0 < 2 ^ k) by (rewrite Hk; lia).
  rewrite (Z.mod_eq a (2 ^ k)), (Z.mod_eq b (2 ^ j)) by lia.
  pose proof (Z.mul_div_le a (2 ^ k) Hk0) as H1.
  assert (H2 : 2 ^ (k - j) * (a / 2 ^ k) <= a / 2 ^ j).
  { apply Z.div_le_lower_bound; [exact Hj|].
    rewrite Z.mul_assoc, <- Hk. exact H1. }
  pose proof (Z.div_le_mono a b (2 ^ j) Hj Hab) as H3.
  apply (Z.mul_le_mono_nonneg_l _ _ (2 ^ j)) in H2; [|lia].
  apply (Z.mul_le_mono_nonneg_l _ _ (2 ^ j)) in H3; [|lia].
  rewrite Z.mul_assoc, <- Hk in H2. lia.
Qed.

Lemma granted_mono (word word' nitems nitems' size size' : Z) :
  initial_pos word' <= initial_pos word ->
  0 <= nitems <= nitems' -> 1 <= size <= size' ->
  granted word' nitems' size' <= granted word nitems size.
Proof.
  intros Hw Hn Hs. unfold granted. cbv zeta.
  apply round_down_mono.
  - split; [apply Z.log2_up_nonneg|apply Z.log2_up_le_mono; lia].
  - nia.
Qed.

(** A request at least as large, made with a cursor at most as high,
    fails when the smaller one does. *)
Lemma sol_calloc_fails_mono (word word' nitems nitems' size size' : Z) :
  uint64 word -> uint64 word' ->
  uint64 nitems -> uint64 nitems' -> uint64 size' ->
  initial_pos word' <= initial_pos word ->
  nitems <= nitems' -> 1 <= size <= size' ->
  fst (sol_calloc word nitems size) = NULL ->
  fst (sol_calloc word' nitems' size') = NULL.
Proof.
  intros Hw Hw' Hn Hn' Hs' Hpos Hnn Hss Hfail.
  destruct (sol_calloc_cases word' nitems' size' Hw' Hn' Hs')
    as [E|(Hsz & Hb & Hlow & E)]; [now rewrite E|exfalso].
  unfold uint64 in *.
  pose proof (granted_mono word word' nitems nitems' size size'
                Hpos ltac:(lia) Hss) as Hg.
  rewrite sol_calloc_success in Hfail; try lia; try assumption.
  - cbn [fst] in Hfail. revert Hlow Hfail.
    unfold NULL, HEAP_START_ADDRESS, sizeof_ptr. lia.
  - nia.
Qed.

(** The cursor of later calls is never above the cursor of earlier
    ones, and the word stays a 64-bit value. *)
Lemma sol_calloc_word_le (word nitems size : Z) :
  uint64 word ->
  uint64 (snd (sol_calloc word nitems size)) /\
  initial_pos (snd (sol_calloc word nitems size)) <= initial_pos word.
Proof.
  intros Hw. pose proof (initial_pos_range word Hw) as Hp.
  pose proof (sol_calloc_word word nitems size ltac:(lia)) as H.
  destruct (sol_calloc word nitems size) as [p word']. cbn [snd].
  destruct H as [[_ ->]|[_ H]]; [split; [exact Hw|lia]|].
  assert (Hne : word' <> 0)
    by (revert H; unfold HEAP_START_ADDRESS, sizeof_ptr; lia).
  rewrite (initial_pos_nonzero word' Hne).
  split; [|lia]. revert H.
  unfold uint64, HEAP_START_ADDRESS, sizeof_ptr. lia.
Qed.

Lemma run_callocs_word_le (reqs : list (Z * Z)) : forall word,
  uint64 word ->
  uint64 (snd (run_callocs word reqs)) /\
  initial_pos (snd (run_callocs word reqs)) <= initial_pos word.
Proof.
  induction reqs as [|[nitems size] reqs IH]; intros word Hw.
  - cbn. split; [exact Hw|lia].
  - rewrite run_callocs_cons. cbn [snd].
    destruct (sol_calloc_word_le word nitems size Hw) as [Hu Hle].
    destruct (IH _ Hu) as [Hu' Hle']. split; [exact Hu'|lia].
Qed.

(** Every later grant of a run ends at or below the base of every
    earlier one. *)
Lemma run_callocs_stacked (reqs : list (Z * Z)) : forall word,
  uint64 word -> Forall valid_request reqs ->
  ForallOrdPairs (fun x y => below (base x) y) (fst (run_callocs word reqs)).
Proof.
  induction reqs as [|[nitems size] reqs IH]; intros word Hw Hv.
  - cbn. constructor.
  - inversion Hv as [|r l [Hn Hs] Hv' Heq]; subst. cbn [fst snd] in Hn, Hs.
    rewrite run_callocs_cons. cbv zeta. cbn [fst].
    destruct (sol_calloc_cases word nitems size Hw Hn Hs)
      as [E|(Hsz & Hb & Hlow & E)]; rewrite E; cbn [fst snd].
    + rewrite Z.eqb_refl. apply IH; assumption.
    + set (g := granted word nitems size) in *.
      pose proof (granted_le word nitems size) as Hle. fold g in Hle.
      pose proof (initial_pos_range word Hw) as Hp.
      assert (Hg0 : g <> 0)
        by (revert Hlow; unfold HEAP_START_ADDRESS, sizeof_ptr; lia).
      assert (Hgw : uint64 g)
        by (revert Hlow; unfold uint64, HEAP_START_ADDRESS, sizeof_ptr; lia).
      replace (g =? NULL) with false by (symmetry; now apply Z.eqb_neq).
      constructor; [|apply IH; assumption].
      destruct (run_callocs_grants reqs g Hgw Hv') as (Hbelow & _ & _).
      rewrite (initial_pos_nonzero g Hg0) in Hbelow. exact Hbelow.
Qed.

Lemma run_callocs_total (reqs : list (Z * Z)) : forall word,
  uint64 word -> Forall valid_request reqs ->
  HEAP_START_ADDRESS + sizeof_ptr <= initial_pos word ->
  total_bytes (fst (run_callocs word reqs))
    <= initial_pos word - (HEAP_START_ADDRESS + sizeof_ptr).
Proof.
  induction reqs as [|[nitems size] reqs IH]; intros word Hw Hv Hpos.
  - cbn [run_callocs fst total_bytes]. lia.
  - inversion Hv as [|r l [Hn Hs] Hv' Heq]; subst. cbn [fst snd] in Hn, Hs.
    rewrite run_callocs_cons. cbv zeta. cbn [fst].
    destruct (sol_calloc_cases word nitems size Hw Hn Hs)
      as [E|(Hsz & Hb & Hlow & E)]; rewrite E; cbn [fst snd].
    + rewrite Z.eqb_refl. apply IH; assumption.
    + set (g := granted word nitems size) in *.
      pose proof (granted_le word nitems size) as Hle. fold g in Hle.
      pose proof (initial_pos_range word Hw) as Hp.
      assert (Hg0 : g <> 0)
        by (revert Hlow; unfold HEAP_START_ADDRESS, sizeof_ptr; lia).
      assert (Hgw : uint64 g)
        by (revert Hlow; unfold uint64, HEAP_START_ADDRESS, sizeof_ptr; lia).
      replace (g =? NULL) with false by (symmetry; now apply Z.eqb_neq).
      cbn [total_bytes a_nitems a_size].
      specialize (IH g Hgw Hv').
      rewrite (initial_pos_nonzero g Hg0) in IH.
      specialize (IH Hlow). lia.
Qed.

(** The alignment is less than twice the size. *)
Lemma pow2_log2_up_lt_double (size : Z) :
  1 <= size -> 2 ^ Z.log2_up size < 2 * size.
Proof.
  intros Hs. destruct (Z.eq_dec size 1) as [->|Hne]; [reflexivity|].
  pose proof (Z.log2_up_spec size ltac:(lia)) as [Hlow _].
  assert (Hpos : 0 < Z.log2_up size) by (apply Z.log2_up_pos; lia).
  replace (Z.log2_up size) with (Z.succ (Z.pred (Z.log2_up size))) at 1
    by lia.
  rewrite Z.pow_succ_r by lia. lia.
Qed.

End Capacity.

(** X12.  Every allocation granted in a run started on a fresh heap
    lies inside the heap region and above the cursor word: its base is
    at least [HEAP_START_ADDRESS + 8] and its last byte is below
    [HEAP_START_ADDRESS + HEAP_LENGTH]. *)
Theorem callocs_within_heap (reqs : list (Z * Z)) (i : nat) (g : alloc) :
  Forall valid_request reqs ->
  nth_error (fst (run_callocs 0 reqs)) i = Some g ->
  HEAP_START_ADDRESS + 8 <= base g /\
  0 <= a_nitems g * a_size g /\
  base g + a_nitems g * a_size g <= HEAP_START_ADDRESS + HEAP_LENGTH.
Proof.
  intros Hv Hg.
  assert (Hu : uint64 0) by (unfold uint64; lia).
  destruct (run_callocs_grants reqs 0 Hu Hv) as (Hbelow & _ & _).
  rewrite Forall_forall in Hbelow.
  exact (Hbelow g (nth_error_In _ _ Hg)).
Qed.

Lemma callocs_within_heap_witness :
  HEAP_START_ADDRESS + 8
    <= base (nth 2 (fst (run_callocs 0 [(2, 24); (0, 8); (1, 40000); (3, 5)]))
               {| base := 0; a_nitems := 0; a_size := 0 |}).
Proof.
  apply (callocs_within_heap [(2, 24); (0, 8); (1, 40000); (3, 5)] 2).
  - repeat constructor; cbn [fst snd]; vm_compute; discriminate || reflexivity.
  - reflexivity.
Defined.

(** X13.  The allocations granted in a run started on a fresh heap
    add up to at most [HEAP_LENGTH - 8] bytes. *)
Theorem callocs_total_bytes (reqs : list (Z * Z)) :
  Forall valid_request reqs ->
  total_bytes (fst (run_callocs 0 reqs)) <= HEAP_LENGTH - 8.
Proof.
  intros Hv.
  assert (Hu : uint64 0) by (unfold uint64; lia).
  pose proof (run_callocs_total reqs 0 Hu Hv) as H.
  change (initial_pos 0) with (HEAP_START_ADDRESS + HEAP_LENGTH) in H.
  unfold sizeof_ptr in H.
  assert (HEAP_START_ADDRESS + 8 <= HEAP_START_ADDRESS + HEAP_LENGTH)
    by (vm_compute; discriminate).
  specialize (H ltac:(assumption)). lia.
Qed.

Lemma callocs_total_bytes_witness :
  total_bytes (fst (run_callocs 0 [(2, 24); (0, 8); (1, 40000); (3, 5)]))
    <= HEAP_LENGTH - 8.
Proof.
  apply (callocs_total_bytes [(2, 24); (0, 8); (1, 40000); (3, 5)]).
  repeat constructor; cbn [fst snd]; vm_compute; discriminate || reflexivity.
Defined.

(** X14.  The heap grows downward: in a run started on a fresh heap,
    an allocation granted later ends at or below the base of every
    allocation granted earlier. *)
Theorem callocs_stacked_downward
    (reqs : list (Z * Z)) (i j : nat) (x y : alloc) :
  Forall valid_request reqs ->
  (i < j)%nat ->
  nth_error (fst (run_callocs 0 reqs)) i = Some x ->
  nth_error (fst (run_callocs 0 reqs)) j = Some y ->
  base y + a_nitems y * a_size y <= base x.
Proof.
  intros Hv Hij Hx Hy.
  assert (Hu : uint64 0) by (unfold uint64; lia).
  pose proof (run_callocs_stacked reqs 0 Hu Hv) as H.
  apply (ordered_pairs_nth _ _ H i j x y Hij Hx Hy).
Qed.

Lemma callocs_stacked_downward_witness :
  base (nth 2 (fst (run_callocs 0 [(2, 24); (0, 8); (3, 5)]))
          {| base := 0; a_nitems := 0; a_size := 0 |}) + 3 * 5
    <= base (nth 0 (fst (run_callocs 0 [(2, 24); (0, 8); (3, 5)]))
               {| base := 0; a_nitems := 0; a_size := 0 |}).
Proof.
  apply (callocs_stacked_downward [(2, 24); (0, 8); (3, 5)] 0 2
           (nth 0 (fst (run_callocs 0 [(2, 24); (0, 8); (3, 5)]))
              {| base := 0; a_nitems := 0; a_size := 0 |})
           (nth 2 (fst (run_callocs 0 [(2, 24); (0, 8); (3, 5)]))
              {| base := 0; a_nitems := 0; a_size := 0 |})).
  - repeat constructor; cbn [fst snd]; vm_compute; discriminate || reflexivity.
  - lia.
  - reflexivity.
  - reflexivity.
Defined.

(** X15.  Once a request with [size >= 1] has failed, every request
    with at least as many items of at least that size fails too, at
    that point and after any further calls. *)
Theorem sol_calloc_failure_persists
    (word nitems size nitems' size' : Z) (reqs : list (Z * Z)) :
  uint64 word -> uint64 nitems -> uint64 nitems' -> uint64 size' ->
  nitems <= nitems' -> 1 <= size <= size' ->
  fst (sol_calloc word nitems size) = NULL ->
  fst (sol_calloc (snd (run_callocs word reqs)) nitems' size') = NULL.
Proof.
  intros Hw Hn Hn' Hs' Hnn Hss Hfail.
  destruct (run_callocs_word_le reqs word Hw) as [Hu Hle].
  exact (sol_calloc_fails_mono word _ nitems nitems' size size'
           Hw Hu Hn Hn' Hs' Hle Hnn Hss Hfail).
Qed.

Lemma sol_calloc_failure_persists_witness :
  fst (sol_calloc (snd (run_callocs (HEAP_START_ADDRESS + 4096) [(1, 16)]))
         2 4096) = NULL.
Proof.
  apply (sol_calloc_failure_persists
           (HEAP_START_ADDRESS + 4096) 1 4096 2 4096 [(1, 16)]).
  - vm_compute. split; [discriminate|reflexivity].
  - vm_compute. split; [discriminate|reflexivity].
  - vm_compute. split; [discriminate|reflexivity].
  - vm_compute. split; [discriminate|reflexivity].
  - lia.
  - lia.
  - vm_compute. reflexivity.
Defined.

(** X16.  With [size = 1] nothing is lost to alignment: the call
    succeeds exactly when [nitems] bytes fit between
    [HEAP_START_ADDRESS + 8] and the cursor. *)
Theorem sol_calloc_bytes_capacity (word nitems : Z) :
  uint64 word -> uint64 nitems ->
  (fst (sol_calloc word nitems 1) <> NULL <->
   nitems <= initial_pos word - (HEAP_START_ADDRESS + 8)).
Proof.
  intros Hw Hn.
  assert (Hs : uint64 1) by (unfold uint64; lia).
  assert (Hg : granted word nitems 1 = initial_pos word - nitems).
  { unfold granted. cbv zeta. change (2 ^ Z.log2_up 1) with 1.
    rewrite Z.mod_1_r. lia. }
  split.
  - intros Hok.
    destruct (sol_calloc_cases word nitems 1 Hw Hn Hs)
      as [E|(_ & _ & Hlow & _)].
    + rewrite E in Hok. now elim Hok.
    + rewrite Hg in Hlow. unfold sizeof_ptr in Hlow. lia.
  - intros Hfit. unfold uint64 in Hn.
    rewrite sol_calloc_success; try assumption; try lia.
    + cbn [fst]. rewrite Hg. revert Hfit.
      unfold NULL, HEAP_START_ADDRESS. lia.
    + revert Hfit. unfold HEAP_START_ADDRESS. lia.
    + rewrite Hg. unfold sizeof_ptr. lia.
Qed.

Lemma sol_calloc_bytes_capacity_witness :
  fst (sol_calloc 0 32760 1) <> NULL <->
  32760 <= initial_pos 0 - (HEAP_START_ADDRESS + 8).
Proof.
  apply (sol_calloc_bytes_capacity 0 32760);
    vm_compute; split; (discriminate || reflexivity).
Defined.

(** X17.  A successful call stores the returned address in the word
    and lowers the cursor by at least [nitems * size] and by less than
    [(nitems + 2) * size] bytes. *)
Theorem sol_calloc_padding_bound (word nitems size : Z) :
  uint64 word -> uint64 nitems -> uint64 size ->
  fst (sol_calloc word nitems size) <> NULL ->
  snd (sol_calloc word nitems size) = fst (sol_calloc word nitems size) /\
  initial_pos word - (nitems + 2) * size
    < fst (sol_calloc word nitems size)
    <= initial_pos word - nitems * size.
Proof.
  intros Hw Hn Hs Hok.
  destruct (sol_calloc_cases word nitems size Hw Hn Hs)
    as [E|(Hsz & Hb & Hlow & E)].
  - rewrite E in Hok. now elim Hok.
  - rewrite E. cbn [fst snd]. split; [reflexivity|].
    pose proof (granted_le word nitems size) as Hle.
    pose proof (pow2_log2_up_lt_double size ltac:(lia)) as Hd.
    split; [|exact Hle].
    unfold granted. cbv zeta.
    pose proof (Z.mod_pos_bound (initial_pos word - nitems * size)
                  (2 ^ Z.log2_up size)
                  ltac:(apply Z.pow_pos_nonneg;
                        [lia|apply Z.log2_up_nonneg])) as Hm.
    lia.
Qed.

Lemma sol_calloc_padding_bound_witness :
  initial_pos 0 - (3 + 2) * 5 < fst (sol_calloc 0 3 5)
    <= initial_pos 0 - 3 * 5.
Proof.
  apply (sol_calloc_padding_bound 0 3 5);
    vm_compute; repeat split; (reflexivity || discriminate).
Defined.
